(** * js-ipfs, [core/components/add-all]: the add pipeline

    A shallow embedding of
    [packages/ipfs/src/core/components/add-all/index.js]:
    option finalisation of [addAll], the three streaming stages
    [transformFile], [preloadFile] and [pinFile], the progress accumulator,
    and the read-lock discipline of the [try]/[finally] around [yield*].

    JavaScript objects used as option bags are finite maps from property
    names to values; object spread is map union, [delete] is map deletion.
    Async generators are finite trees of yields and collaborator calls that a
    consumer drives with [next()] and [return()].

    The packages the file imports ([cids] through the importer's nodes,
    [ipfs-unixfs-importer], [normalise-input]) and the helper
    [parseChunkerString] of [./utils] are parameters.  The export wraps
    [addAll] in [withTimeoutOption] of [../../utils]; the wrapper is not
    part of this development. *)

From Stdlib Require Import ZArith String Ascii List Bool Lia.
From stdpp Require Import base option gmap strings list.

Local Open Scope string_scope.
Local Open Scope Z_scope.

(** ** JavaScript values *)

(** The values an option can hold.  [VObject] stands for any object or
    function, known by identity only (a caller-supplied progress callback, the
    [chunkerOptions] record, an [AbortSignal]).  [VProgressTotal prog] is the
    arrow function of lines 88-91, closed over [prog] and its own [total]. *)
Inductive jsval : Type :=
| VUndefined
| VNull
| VBool (b : bool)
| VNum (z : Z)
| VInfinity
| VStr (s : string)
| VObject (id : N)
| VProgressTotal (prog : jsval).

#[global] Instance jsval_eq_dec : EqDecision jsval.
Proof. solve_decision. Defined.

(** ToBoolean. *)
Definition truthy (v : jsval) : bool :=
  match v with
  | VUndefined | VNull => false
  | VBool b => b
  | VNum z => negb (z =? 0)
  | VInfinity => true
  | VStr s => negb (bool_decide (s = ""))
  | VObject _ | VProgressTotal _ => true
  end.

(** [a === b] on the values above. *)
Definition strict_eq (a b : jsval) : bool := bool_decide (a = b).

(** [v == null]. *)
Definition is_nullish (v : jsval) : bool :=
  match v with
  | VUndefined | VNull => true
  | _ => false
  end.

(** An option bag, and the property read [o.k] (a missing property reads as
    [undefined]). *)
Abbreviation Options := (gmap string jsval).

Definition get (o : Options) (k : string) : jsval := default VUndefined (o !! k).

(** Errors are carried by their message. *)
Abbreviation Err := string (only parsing).

(** [s.includes(c)] for a one-character needle. *)
Fixpoint includes (s : string) (c : ascii) : bool :=
  match s with
  | EmptyString => false
  | String a rest => if Ascii.eqb a c then true else includes rest c
  end.

(** ** Option finalisation (lines 64-92) *)

(** What option finalisation takes from outside the function:
    [isShardingEnabled] is
    [constructorOptions.EXPERIMENTAL && constructorOptions.EXPERIMENTAL.sharding]
    as the conditional of line 67 reads it; [parseChunkerString], of
    [./utils], throws or returns the properties that are spread last into
    [opts]. *)
Class Config : Type := {
  isShardingEnabled : bool;
  parseChunkerString : jsval -> Err + Options
}.

Section Finalise.

Context `{Config}.

(** Lines 66-71 once the chunker string has been resolved to [parsed]:
    [{ shardSplitThreshold, ...options, strategy: 'balanced', ...parsed }].
    Later properties win, and stdpp's union prefers its left operand. *)
Definition mergeOptions (options parsed : Options) : Options :=
  parsed ∪ <["strategy" := VStr "balanced"]>
    (options ∪ {["shardSplitThreshold" := if isShardingEnabled then VNum 1000 else VInfinity]}).

(** Lines 73-76. *)
Definition forceCidVersion (opts : Options) : Options :=
  if truthy (get opts "hashAlg")
     && negb (strict_eq (get opts "hashAlg") (VStr "sha2-256"))
     && negb (strict_eq (get opts "cidVersion") (VNum 1))
  then <["cidVersion" := VNum 1]> opts
  else opts.

(** Lines 78-82. *)
Definition applyTrickle (opts : Options) : Options :=
  delete "trickle"
    (if truthy (get opts "trickle") then <["strategy" := VStr "trickle"]> opts else opts).

(** Lines 84-92. *)
Definition wrapProgress (opts : Options) : Options :=
  if truthy (get opts "progress")
  then <["progress" := VProgressTotal (get opts "progress")]> opts
  else opts.

(** Lines 73-92 on the merged options. *)
Definition finaliseOptions (opts : Options) : Options :=
  wrapProgress (applyTrickle (forceCidVersion opts)).

(** Lines 64-92: [options || {}], the merge, and the three adjustments. *)
Definition resolveOptions (options : option Options) : Err + Options :=
  let options := default ∅ options in
  match parseChunkerString (get options "chunker") with
  | inl e => inl e
  | inr parsed => inr (finaliseOptions (mergeOptions options parsed))
  end.

(** Lines 97-98: what the importer is given, [{ ...opts, pin: false }]. *)
Definition importerOptions (opts : Options) : Options :=
  <["pin" := VBool false]> opts.

End Finalise.

(** ** The progress accumulator (lines 84-92) *)

(** The state the wrapped callback works on: its captured [total], and the
    arguments [prog] has been called with so far, oldest first. *)
Record Progress : Type := mkProgress { total : Z; reported : list Z }.

(** Line 85: [let total = 0]. *)
Definition progress_init : Progress := mkProgress 0 [].

(** Lines 88-91, one call of the wrapped callback:
    [total += bytes; prog(total)].  Byte counts are integers, on which the
    addition of JavaScript numbers is exact below 2^53. *)
Definition progress_call (st : Progress) (bytes : Z) : Progress :=
  let total' := total st + bytes in
  mkProgress total' (reported st ++ [total']).

(** The importer calling the wrapped callback once per byte event. *)
Definition progress_run (events : list Z) : Progress :=
  fold_left progress_call events progress_init.

(** The sum of the first [k] byte counts. *)
Definition partial_sum (events : list Z) (k : nat) : Z :=
  fold_right Z.add 0 (firstn k events).

(** ** Async generators *)

(** The [cids] package: a CID, its version-1 form ([cid.toV1()]) and its
    string form ([cid.toString()]). *)
Class Cids : Type := {
  CID : Type;
  toV1 : CID -> CID;
  cidToString : CID -> string
}.

Section Pipeline.

Context `{Cids}.

(** [file.unixfs], when the importer sets it. *)
Record UnixFS : Type := mkUnixFS { unixfs_mode : jsval; unixfs_mtime : jsval }.

(** What the importer yields.  [file_path] is [None] when the property is
    [undefined]. *)
Record ImportedNode : Type := mkNode {
  file_cid : CID;
  file_path : option string;
  file_size : jsval;
  file_unixfs : option UnixFS
}.

(** What [transformFile] yields (lines 132-138). *)
Record OutputEntry : Type := mkEntry {
  path : string;
  cid : CID;
  size : jsval;
  mode : jsval;
  mtime : jsval
}.

(** The second argument of [pin.add] (lines 172-175). *)
Record PinOptions : Type := mkPinOptions { pin_preload : bool; pin_lock : bool }.

(** Calls into the injected collaborators [preload] and [pin]. *)
Inductive Call : Type :=
| Preload (c : CID)
| PinAdd (c : CID) (o : PinOptions).

(** How a promise settles, and how a call ends: it returns (a promise, or a
    plain value, which [await] treats as fulfilled), or it throws. *)
Inductive settled : Type :=
| Fulfilled
| Rejected (e : Err).

Inductive outcome : Type :=
| Returns (p : settled)
| Throws (e : Err).

(** [gcLock.readLock()] and the release function it resolves to. *)
Inductive LockOp : Type :=
| ReadLock
| ReleaseLock.

(** A generator body from some point on: it completes, throws, performs a
    lock operation, calls a collaborator and goes on with how the call ended,
    or is suspended at a [yield], from where [next()] resumes it with
    [resume] and [return()] with [close]. *)
Inductive Gen (A : Type) : Type :=
| Done
| Throw (e : Err)
| Yield (a : A) (resume : Gen A) (close : Gen A)
| Do (op : LockOp) (k : Gen A)
| Invoke (c : Call) (k : outcome -> Gen A).

Arguments Done {A}.
Arguments Throw {A} e.
Arguments Yield {A} a resume close.
Arguments Do {A} op k.
Arguments Invoke {A} c k.

(** [for await (... of source)] left while suspended at a [yield] that
    received [return()]: the loop awaits [source.return()] and the generator
    completes, unless that call throws. *)
Fixpoint closing {A B : Type} (source : Gen A) : Gen B :=
  match source with
  | Done => Done
  | Throw e => Throw e
  | Yield _ _ _ => Done
  | Do op k => Do op (closing k)
  | Invoke c k => Invoke c (fun o => closing (k o))
  end.

(** [for await (... of source)] left by a throw in the loop body: the loop
    awaits [source.return()] and the original error is rethrown, whatever
    that call did. *)
Fixpoint closing_throw {A B : Type} (source : Gen A) (e : Err) : Gen B :=
  match source with
  | Done => Throw e
  | Throw _ => Throw e
  | Yield _ _ _ => Throw e
  | Do op k => Do op (closing_throw k e)
  | Invoke c k => Invoke c (fun o => closing_throw (k o) e)
  end.

(** [await call]: goes on when the call returned something that fulfils. *)
Definition await {A : Type} (o : outcome) (k : Gen A) (fail : Err -> Gen A) : Gen A :=
  match o with
  | Returns Fulfilled => k
  | Returns (Rejected e) => fail e
  | Throws e => fail e
  end.

(** A call whose result is dropped: only a synchronous throw is seen. *)
Definition unawaited {A : Type} (o : outcome) (k : Gen A) (fail : Err -> Gen A) : Gen A :=
  match o with
  | Returns _ => k
  | Throws e => fail e
  end.

(** ** The three stages (lines 117-181) *)

(** [file.path] as a value. *)
Definition path_value (p : option string) : jsval :=
  match p with
  | Some s => VStr s
  | None => VUndefined
  end.

(** Lines 120-138, the body of the loop of [transformFile]. *)
Definition transformEntry (opts : Options) (file : ImportedNode) : OutputEntry :=
  let cid := if strict_eq (get opts "cidVersion") (VNum 1)
             then toV1 (file_cid file) else file_cid file in
  let path := match file_path file with
              | Some p => if truthy (VStr p) then p else cidToString cid
              | None => cidToString cid
              end in
  let path := if truthy (get opts "wrapWithDirectory")
                 && negb (truthy (path_value (file_path file)))
              then "" else path in
  {| path := path;
     cid := cid;
     size := file_size file;
     mode := match file_unixfs file with Some u => unixfs_mode u | None => VUndefined end;
     mtime := match file_unixfs file with Some u => unixfs_mtime u | None => VUndefined end |}.

(** Lines 117-141. *)
Fixpoint transformFile (opts : Options) (source : Gen ImportedNode) : Gen OutputEntry :=
  match source with
  | Done => Done
  | Throw e => Throw e
  | Yield file resume close =>
      Yield (transformEntry opts file) (transformFile opts resume) (closing close)
  | Do op k => Do op (transformFile opts k)
  | Invoke c k => Invoke c (fun o => transformFile opts (k o))
  end.

(** Lines 146-148: [!file.path || opts.wrapWithDirectory ? file.path === ''
    : !file.path.includes('/')]; the conditional binds weakest. *)
Definition isRootFile (opts : Options) (file : OutputEntry) : bool :=
  if negb (truthy (VStr (path file))) || truthy (get opts "wrapWithDirectory")
  then strict_eq (VStr (path file)) (VStr "")
  else negb (includes (path file) "/").

(** Line 150. *)
Definition shouldPreload (opts : Options) (file : OutputEntry) : bool :=
  isRootFile opts file
  && negb (truthy (get opts "onlyHash"))
  && negb (strict_eq (get opts "preload") (VBool false)).

(** Lines 143-159.  [preload(file.cid)] is called and its result dropped. *)
Fixpoint preloadFile (opts : Options) (source : Gen OutputEntry) : Gen OutputEntry :=
  match source with
  | Done => Done
  | Throw e => Throw e
  | Yield file resume close =>
      let onward := Yield file (preloadFile opts resume) (closing close) in
      if shouldPreload opts file
      then Invoke (Preload (cid file))
             (fun o => unawaited o onward (closing_throw close))
      else onward
  | Do op k => Do op (preloadFile opts k)
  | Invoke c k => Invoke c (fun o => preloadFile opts (k o))
  end.

(** Line 166. *)
Definition isRootDir (file : OutputEntry) : bool :=
  negb (includes (path file) "/").

(** Line 167, as the [if] of line 169 reads it. *)
Definition shouldPin (opts : Options) (file : OutputEntry) : bool :=
  (if is_nullish (get opts "pin") then true else truthy (get opts "pin"))
  && isRootDir file
  && negb (truthy (get opts "onlyHash")).

(** Lines 172-175: [{ preload: false, lock: false }]. *)
Definition pinAddOptions : PinOptions := mkPinOptions false false.

(** Lines 161-181.  [pin.add] is awaited before the entry is yielded. *)
Fixpoint pinFile (opts : Options) (source : Gen OutputEntry) : Gen OutputEntry :=
  match source with
  | Done => Done
  | Throw e => Throw e
  | Yield file resume close =>
      let onward := Yield file (pinFile opts resume) (closing close) in
      if shouldPin opts file
      then Invoke (PinAdd (cid file) pinAddOptions)
             (fun o => await o onward (closing_throw close))
      else onward
  | Do op k => Do op (pinFile opts k)
  | Invoke c k => Invoke c (fun o => pinFile opts (k o))
  end.

(** ** [addAll] (lines 63-112) *)

(** Lines 107-111: [try { yield * iterator } finally { releaseLock() }].
    Every yield of [iterator] is passed on; [return()] at such a yield is
    forwarded to [iterator], and however the delegation ends the lock is
    released before [addAll] ends the same way. *)
Fixpoint yield_star_finally {A : Type} (iterator : Gen A) : Gen A :=
  match iterator with
  | Done => Do ReleaseLock Done
  | Throw e => Do ReleaseLock (Throw e)
  | Yield a resume close =>
      Yield a (yield_star_finally resume) (yield_star_finally close)
  | Do op k => Do op (yield_star_finally k)
  | Invoke c k => Invoke c (fun o => yield_star_finally (k o))
  end.

(** What the importer (fed by [normaliseAddInput]) does when pulled: it is
    exhausted, throws, or yields a node and goes on. *)
Inductive Upstream : Type :=
| UpDone
| UpThrow (e : Err)
| UpYield (file : ImportedNode) (rest : Upstream).

(** The importer's generator: no lock operation and no call to [preload] or
    [pin] is its own, and its [return()] completes it. *)
Fixpoint upstream_gen (u : Upstream) : Gen ImportedNode :=
  match u with
  | UpDone => Done
  | UpThrow e => Throw e
  | UpYield file rest => Yield file (upstream_gen rest) Done
  end.

(** How an upstream ends when pulled to its end: with an error, or not. *)
Fixpoint upstream_end (u : Upstream) : option Err :=
  match u with
  | UpDone => None
  | UpThrow e => Some e
  | UpYield _ rest => upstream_end rest
  end.

(** The nodes an upstream yields when pulled to its end. *)
Fixpoint upstream_nodes (u : Upstream) : list ImportedNode :=
  match u with
  | UpDone | UpThrow _ => []
  | UpYield file rest => file :: upstream_nodes rest
  end.

(** The caller's source, what [normaliseAddInput] makes of it, the importer
    and the block service handed to it.  [normaliseAddInput(source)] is
    evaluated when the pipe is built (line 95): it returns an iterable or
    throws there and then.  The importer is a generator function: whatever
    goes wrong in it, or in the iterable it reads, shows when it is pulled. *)
Class Importer : Type := {
  Source : Type;
  Normalised : Type;
  Block : Type;
  normaliseAddInput : Source -> Err + Normalised;
  importer : Normalised -> Block -> Options -> Upstream;
  block : Block
}.

Context `{Config} `{Importer}.

(** Lines 100-102: the three stages piped after the importer. *)
Definition stages (opts : Options) (imported : Gen ImportedNode) : Gen OutputEntry :=
  pinFile opts (preloadFile opts (transformFile opts imported)).

(** Lines 96-102: the pipe after its first argument. *)
Definition pipeline (items : Normalised) (opts : Options) : Gen OutputEntry :=
  stages opts (upstream_gen (importer items block (importerOptions opts))).

(** Lines 63-112.  The body runs from its start on the first [next()]. *)
Definition addAll (source : Source) (options : option Options) : Gen OutputEntry :=
  match resolveOptions options with
  | inl e => Throw e
  | inr opts =>
      match normaliseAddInput source with
      | inl e => Throw e
      | inr items =>
          let iterator := pipeline items opts in
          Do ReadLock (yield_star_finally iterator)
      end
  end.

(** ** Consumers and runs *)

(** What a run leaves behind, in order. *)
Inductive Event : Type :=
| EvLock (op : LockOp)
| EvCall (c : Call) (o : outcome)
| EvYield (file : OutputEntry).

(** How a run ends: the generator is exhausted, has thrown, has completed a
    [return()], or is left suspended (or never started). *)
Inductive Exit : Type :=
| Exhausted
| Failed (e : Err)
| Returned
| Suspended.

(** The collaborators: how the call made as the [n]th event of a run ends. *)
Definition Env : Type := nat -> Call -> outcome.

(** What a consumer does with the entries it holds: it calls [next()], it
    calls [return()] (what leaving a [for await] does), or it walks away. *)
Inductive Decision : Type :=
| Next
| Return
| WalkAway.

Definition Consumer : Type := list OutputEntry -> Decision.

Definition emit (ev : Event) (r : list Event * Exit) : list Event * Exit :=
  (ev :: fst r, snd r).

(** A [return()] received at a yield: [close] runs to its end. *)
Fixpoint finish (env : Env) (g : Gen OutputEntry) (n : nat) : list Event * Exit :=
  match g with
  | Done => ([], Returned)
  | Throw e => ([], Failed e)
  | Yield _ _ _ => ([], Suspended)
  | Do op k => emit (EvLock op) (finish env k (S n))
  | Invoke c k => let o := env n c in emit (EvCall c o) (finish env (k o) (S n))
  end.

(** A [next()] and all that follows it. *)
Fixpoint consume (env : Env) (consumer : Consumer) (g : Gen OutputEntry)
    (seen : list OutputEntry) (n : nat) : list Event * Exit :=
  match g with
  | Done => ([], Exhausted)
  | Throw e => ([], Failed e)
  | Yield a resume close =>
      let seen := (seen ++ [a])%list in
      match consumer seen with
      | Next => emit (EvYield a) (consume env consumer resume seen (S n))
      | Return => emit (EvYield a) (finish env close (S n))
      | WalkAway => ([EvYield a], Suspended)
      end
  | Do op k => emit (EvLock op) (consume env consumer k seen (S n))
  | Invoke c k =>
      let o := env n c in emit (EvCall c o) (consume env consumer (k o) seen (S n))
  end.

(** One invocation, from the generator object to the end of its use.  An
    async generator that receives [return()] before any [next()] completes
    without running its body. *)
Definition run (env : Env) (consumer : Consumer) (g : Gen OutputEntry) : list Event * Exit :=
  match consumer [] with
  | Next => consume env consumer g [] 0%nat
  | Return => ([], Returned)
  | WalkAway => ([], Suspended)
  end.

(** Consumers: pull to exhaustion; take [k] entries and leave the loop. *)
Definition drain : Consumer := fun _ => Next.

Definition take_then_return (k : nat) : Consumer :=
  fun seen => if (length seen <? k)%nat then Next else Return.

(** Readings of a trace. *)
Definition is_lock (op : LockOp) (ev : Event) : bool :=
  match ev, op with
  | EvLock ReadLock, ReadLock => true
  | EvLock ReleaseLock, ReleaseLock => true
  | _, _ => false
  end.

Fixpoint count_lock (op : LockOp) (tr : list Event) : nat :=
  match tr with
  | [] => 0%nat
  | ev :: tr => ((if is_lock op ev then 1 else 0) + count_lock op tr)%nat
  end.

Definition acquisitions (tr : list Event) : nat := count_lock ReadLock tr.
Definition releases (tr : list Event) : nat := count_lock ReleaseLock tr.

Fixpoint yielded (tr : list Event) : list OutputEntry :=
  match tr with
  | [] => []
  | EvYield file :: tr => file :: yielded tr
  | _ :: tr => yielded tr
  end.

Fixpoint calls (tr : list Event) : list Call :=
  match tr with
  | [] => []
  | EvCall c _ :: tr => c :: calls tr
  | _ :: tr => calls tr
  end.

End Pipeline.

Arguments Done {_ _}.
Arguments Throw {_ _} e.
Arguments Yield {_ _} a resume close.
Arguments Do {_ _} op k.
Arguments Invoke {_ _} c k.

(** ** The stage contracts, as the specification words them *)

Section Contracts.

Context `{Cids}.

(** A stage's input given as the list of entries it will be handed. *)
Fixpoint source_of (files : list OutputEntry) : Gen OutputEntry :=
  match files with
  | [] => Done
  | file :: files => Yield file (source_of files) Done
  end.










(** Two collaborator behaviours that differ at most in how the promises
    returned by [preload] settle. *)
Definition same_but_preload_settlement (env1 env2 : Env) : Prop :=
  ∀ n c,
    match c with
    | Preload _ =>
        match env1 n c, env2 n c with
        | Returns _, Returns _ => True
        | Throws e1, Throws e2 => e1 = e2
        | _, _ => False
        end
    | PinAdd _ _ => env1 n c = env2 n c
    end.

End Contracts.

(** ** Concrete collaborators, to run the pipeline on *)

Module Demo.

(** CIDs as a version and a digest. *)
Definition cids : Cids :=
  {| CID := Z * string;
     toV1 := fun c => (1, snd c);
     cidToString := fun c => (if fst c =? 0 then "Qm" else "bafy") ++ snd c |}.

(** The version-0 CID of a digest. *)
Definition v0 (digest : string) : @CID cids := (0, digest).

(** A resolver that takes an absent spec and the documented default
    ['size-262144'], and rejects every other value. *)
Definition config : Config :=
  {| isShardingEnabled := false;
     parseChunkerString := fun v =>
       match v with
       | VUndefined => inr {["chunker" := VStr "fixed"]}
       | VStr "size-262144" => inr {["chunker" := VStr "fixed"]}
       | _ => inl "Unrecognized chunker option"
       end |}.

(** A directory with one file in it, the file first. *)
Definition child : ImportedNode (H := cids) :=
  mkNode (v0 "child") (Some "dir/a.txt") (VNum 3) None.

Definition top : ImportedNode (H := cids) :=
  mkNode (v0 "top") (Some "dir") (VNum 57) None.

Definition tree : Importer (H := cids) :=
  {| Source := unit; Normalised := unit; Block := unit;
     normaliseAddInput := fun s => inr s;
     importer := fun _ _ _ => UpYield child (UpYield top UpDone);
     block := tt |}.

(** Collaborators that always succeed; a [preload] that throws; a [preload]
    whose promise rejects. *)
Definition all_fulfil : Env (H := cids) := fun _ _ => Returns Fulfilled.

Definition preload_throws : Env (H := cids) :=
  fun _ c => match c with
             | Preload _ => Throws "preload failed"
             | PinAdd _ _ => Returns Fulfilled
             end.

Definition preload_rejects : Env (H := cids) :=
  fun _ c => match c with
             | Preload _ => Returns (Rejected "preload failed")
             | PinAdd _ _ => Returns Fulfilled
             end.

(** A consumer that takes one entry and never comes back. *)
Definition pull_once_and_leave : Consumer (H := cids) :=
  fun held => match held with [] => Next | _ => WalkAway end.

(** A root entry and a nested one, as the pin and preload stages see them. *)
Definition root_entry : OutputEntry (H := cids) :=
  mkEntry "dir" (v0 "top") (VNum 57) VUndefined VUndefined.

Definition nested_entry : OutputEntry (H := cids) :=
  mkEntry "dir/a.txt" (v0 "child") (VNum 3) VUndefined VUndefined.

(** The options of an invocation with none given, as resolved. *)
Definition default_opts : Options :=
  finaliseOptions (mergeOptions (H := config) ∅ {["chunker" := VStr "fixed"]}).

(** An invocation with default options, and one with a chunker string the
    resolver rejects. *)
Definition add_tree : Gen (H := cids) OutputEntry :=
  addAll (H0 := config) (H1 := tree) tt None.

Definition add_tree_bad_chunker : Gen (H := cids) OutputEntry :=
  addAll (H0 := config) (H1 := tree) tt (Some {["chunker" := VStr "rabbit"]}).

End Demo.

(** ** Readings of whole runs *)

Section RunReadings.

Context `{Cids}.

(** The error a collaborator call hands to the stage that made it: a
    [preload] only by throwing, an awaited [pin.add] by throwing or by a
    promise that rejects. *)
Definition failure (c : Call) (o : outcome) : option Err :=
  match c, o with
  | _, Throws e => Some e
  | PinAdd _ _, Returns (Rejected e) => Some e
  | _, _ => None
  end.

(** What one entry leaves in the trace when nothing fails: the [preload]
    call if line 152 makes it, the [pin.add] call if line 169 makes it, and
    the yield. *)
Definition events_of (opts : Options) (file : OutputEntry) : list Event :=
  ((if shouldPreload opts file
    then [EvCall (Preload (cid file)) (Returns Fulfilled)] else [])
   ++ (if shouldPin opts file
       then [EvCall (PinAdd (cid file) pinAddOptions) (Returns Fulfilled)] else [])
   ++ [EvYield file])%list.

Definition is_preload (c : Call) : bool :=
  match c with
  | Preload _ => true
  | PinAdd _ _ => false
  end.

End RunReadings.

Module Cases.

(** An importer that yields the file and then throws. *)
Definition breaks_after_one : Importer (H := Demo.cids) :=
  {| Source := unit; Normalised := unit; Block := unit;
     normaliseAddInput := fun s => inr s;
     importer := fun _ _ _ => UpYield Demo.child (UpThrow "write failed");
     block := tt |}.

(** A [pin.add] whose promise rejects. *)
Definition pin_rejects : Env (H := Demo.cids) :=
  fun _ c => match c with
             | Preload _ => Returns Fulfilled
             | PinAdd _ _ => Returns (Rejected "pin failed")
             end.

End Cases.

(** ** Proof steps shared by the pipeline lemmas *)

(** One node through the three stages and the delegation, case by case. *)
Ltac through_stages :=
  cbn [stages upstream_gen transformFile preloadFile pinFile yield_star_finally
       consume finish emit fst snd await unawaited closing closing_throw];
  repeat first
    [ progress cbn [stages upstream_gen transformFile preloadFile pinFile
                    yield_star_finally consume finish emit fst snd await
                    unawaited closing closing_throw]
    | match goal with
      | |- context [if shouldPreload ?o ?e then _ else _] =>
          destruct (shouldPreload o e) eqn:?
      | |- context [if shouldPin ?o ?e then _ else _] =>
          destruct (shouldPin o e) eqn:?
      | |- context [unawaited (?env ?n ?c)] => destruct (env n c) as [?|?] eqn:?
      | |- context [await (?env ?n ?c)] => destruct (env n c) as [[|?]|?] eqn:?
      | |- context [match ?consumer ?seen with Next => _ | _ => _ end] =>
          destruct (consumer seen) eqn:?
      end ].

(** What two related collaborator behaviours say about one call. *)
Ltac compare_calls Hrel :=
  repeat match goal with
         | H1 : ?env1 ?m ?c = _, H2 : ?env2 ?m ?c = _ |- _ =>
             let X := fresh "Hsame" in
             pose proof (Hrel m c) as X; cbv beta iota in X;
             rewrite H1, H2 in X; clear H1 H2
         end.

(** ** Facts about option finalisation *)

Section FinaliseFacts.

Context `{Config}.

Lemma get_insert_eq (o : Options) (k : string) (v : jsval) :
  get (<[k := v]> o) k = v.
Proof. unfold get. by rewrite lookup_insert_eq. Qed.

Lemma get_insert_ne (o : Options) (k k' : string) (v : jsval) :
  k ≠ k' → get (<[k := v]> o) k' = get o k'.
Proof. intros Hne. unfold get. by rewrite lookup_insert_ne. Qed.

Lemma strict_eq_true (a b : jsval) : strict_eq a b = true ↔ a = b.
Proof. unfold strict_eq. apply bool_decide_eq_true. Qed.

Lemma strict_eq_false (a b : jsval) : strict_eq a b = false ↔ a ≠ b.
Proof. unfold strict_eq. apply bool_decide_eq_false. Qed.

Lemma lookup_forceCidVersion_ne (opts : Options) (k : string) :
  k ≠ "cidVersion" → forceCidVersion opts !! k = opts !! k.
Proof.
  intros Hne. unfold forceCidVersion.
  destruct (_ && _); [|done]. by rewrite lookup_insert_ne.
Qed.

Lemma lookup_wrapProgress_ne (opts : Options) (k : string) :
  k ≠ "progress" → wrapProgress opts !! k = opts !! k.
Proof.
  intros Hne. unfold wrapProgress.
  destruct (truthy _); [|done]. by rewrite lookup_insert_ne.
Qed.

Lemma lookup_applyTrickle_trickle (opts : Options) :
  applyTrickle opts !! "trickle" = None.
Proof. unfold applyTrickle. apply lookup_delete_eq. Qed.

Lemma lookup_applyTrickle_strategy (opts : Options) :
  applyTrickle opts !! "strategy"
  = if truthy (get opts "trickle") then Some (VStr "trickle") else opts !! "strategy".
Proof.
  unfold applyTrickle. rewrite lookup_delete_ne by done.
  destruct (truthy _); [|done]. by rewrite lookup_insert_eq.
Qed.

Lemma lookup_applyTrickle_ne (opts : Options) (k : string) :
  k ≠ "trickle" → k ≠ "strategy" → applyTrickle opts !! k = opts !! k.
Proof.
  intros Ht Hs. unfold applyTrickle. rewrite lookup_delete_ne by done.
  destruct (truthy _); [|done]. by rewrite lookup_insert_ne.
Qed.

Lemma lookup_mergeOptions_strategy (options parsed : Options) :
  mergeOptions options parsed !! "strategy"
  = Some (default (VStr "balanced") (parsed !! "strategy")).
Proof.
  unfold mergeOptions. rewrite lookup_union.
  rewrite lookup_insert_eq. by destruct (parsed !! "strategy").
Qed.

Lemma lookup_mergeOptions_ne (options parsed : Options) (k : string) :
  k ≠ "strategy" → k ≠ "shardSplitThreshold" →
  mergeOptions options parsed !! k = (parsed ∪ options) !! k.
Proof.
  intros Hs Ht. unfold mergeOptions.
  rewrite !lookup_union, lookup_insert_ne, lookup_union by done.
  rewrite lookup_singleton_ne by done.
  by destruct (parsed !! k), (options !! k).
Qed.

Lemma get_forceCidVersion (opts : Options) :
  get (forceCidVersion opts) "cidVersion" = VNum 1
  ↔ get opts "cidVersion" = VNum 1
    ∨ (truthy (get opts "hashAlg") = true ∧ get opts "hashAlg" ≠ VStr "sha2-256").
Proof.
  unfold forceCidVersion.
  destruct (truthy (get opts "hashAlg")) eqn:Ht; simpl.
  - destruct (strict_eq (get opts "hashAlg") _) eqn:Hh; simpl.
    + apply strict_eq_true in Hh. split; [by left|]. intros [?|[_ ?]]; done.
    + apply strict_eq_false in Hh.
      destruct (strict_eq (get opts "cidVersion") _) eqn:Hc; simpl.
      * apply strict_eq_true in Hc. split; [by left|done].
      * rewrite get_insert_eq. split; [by right|done].
  - split; [by left|]. intros [?|[? _]]; done.
Qed.

Lemma get_finaliseOptions_cidVersion (opts : Options) :
  get (finaliseOptions opts) "cidVersion" = get (forceCidVersion opts) "cidVersion".
Proof.
  unfold finaliseOptions, get.
  rewrite lookup_wrapProgress_ne by done.
  by rewrite lookup_applyTrickle_ne by done.
Qed.

End FinaliseFacts.

Section OptionTheorems.

Context `{Config}.

(** C10.  The strategy handed to the importer is never the caller's: whatever
    [strategy] the caller's options carry, the importer gets ['trickle'] when
    the trickle flag is truthy, and otherwise the strategy of the chunker
    resolution if it has one and ['balanced'] if not; the [trickle] property
    itself is deleted and not handed on. *)
Theorem importer_strategy_is_never_the_callers
    (options : option Options) (parsed : Options) :
  parseChunkerString (get (default ∅ options) "chunker") = inr parsed →
  ∃ opts,
    resolveOptions options = inr opts
    ∧ importerOptions opts !! "trickle" = None
    ∧ importerOptions opts !! "strategy"
      = Some (if truthy (get (parsed ∪ default ∅ options) "trickle")
              then VStr "trickle"
              else default (VStr "balanced") (parsed !! "strategy"))
    ∧ ∀ v, ∃ opts',
        resolveOptions (Some (<["strategy" := v]> (default ∅ options))) = inr opts'
        ∧ importerOptions opts' !! "strategy" = importerOptions opts !! "strategy".
Proof.
  intros Hparse.
  assert (Hstrategy : ∀ o : Options,
    importerOptions (finaliseOptions (mergeOptions o parsed)) !! "strategy"
    = Some (if truthy (get (parsed ∪ o) "trickle") then VStr "trickle"
            else default (VStr "balanced") (parsed !! "strategy"))).
  { intros o. unfold importerOptions, finaliseOptions.
    rewrite lookup_insert_ne by done.
    rewrite lookup_wrapProgress_ne by done.
    rewrite lookup_applyTrickle_strategy.
    unfold get at 1. rewrite lookup_forceCidVersion_ne by done.
    rewrite lookup_mergeOptions_ne by done.
    fold (get (parsed ∪ o) "trickle").
    destruct (truthy _); [done|].
    rewrite lookup_forceCidVersion_ne by done.
    apply lookup_mergeOptions_strategy. }
  exists (finaliseOptions (mergeOptions (default ∅ options) parsed)).
  split; [|split; [|split]].
  - unfold resolveOptions. by rewrite Hparse.
  - unfold importerOptions, finaliseOptions.
    rewrite lookup_insert_ne by done.
    rewrite lookup_wrapProgress_ne by done.
    apply lookup_applyTrickle_trickle.
  - apply Hstrategy.
  - intros v.
    exists (finaliseOptions (mergeOptions (<["strategy" := v]> (default ∅ options)) parsed)).
    split.
    + unfold resolveOptions. simpl. rewrite get_insert_ne by done. by rewrite Hparse.
    + rewrite !Hstrategy.
      unfold get. rewrite !lookup_union, lookup_insert_ne by done. done.
Qed.

End OptionTheorems.

Section EntryTheorems.

Context `{Cids}.

(** C3.  With [opts] the options as merged at line 71 and [final] what
    lines 73-92 make of them: the final [cidVersion] is 1 exactly when it was
    1 already or a hash algorithm other than ['sha2-256'] is named; an entry's
    CID is [toV1] of the importer's when the final [cidVersion] is 1, and the
    importer's own otherwise (so, for a CID that [toV1] changes, it is the
    version-1 form if and only if the final [cidVersion] is 1); and naming any
    other hash algorithm gives version-1 CIDs, also with [cidVersion: 0]. *)
Theorem cid_is_v1_iff_effective_version_is_1
    (opts : Options) (file : ImportedNode) :
  let final := finaliseOptions opts in
  (get final "cidVersion" = VNum 1
   ↔ get opts "cidVersion" = VNum 1
     ∨ (truthy (get opts "hashAlg") = true ∧ get opts "hashAlg" ≠ VStr "sha2-256"))
  ∧ (get final "cidVersion" = VNum 1 →
     cid (transformEntry final file) = toV1 (file_cid file))
  ∧ (get final "cidVersion" ≠ VNum 1 →
     cid (transformEntry final file) = file_cid file)
  ∧ (toV1 (file_cid file) ≠ file_cid file →
     (cid (transformEntry final file) = toV1 (file_cid file)
      ↔ get final "cidVersion" = VNum 1))
  ∧ (∀ h : string, get opts "hashAlg" = VStr h → h ≠ "" → h ≠ "sha2-256" →
     get final "cidVersion" = VNum 1
     ∧ cid (transformEntry final file) = toV1 (file_cid file)).
Proof.
  intros final.
  assert (Hv1 : get final "cidVersion" = VNum 1 →
                cid (transformEntry final file) = toV1 (file_cid file)).
  { intros Hv. unfold transformEntry. simpl.
    apply strict_eq_true in Hv. by rewrite Hv. }
  assert (Hv0 : get final "cidVersion" ≠ VNum 1 →
                cid (transformEntry final file) = file_cid file).
  { intros Hv. unfold transformEntry. simpl.
    apply strict_eq_false in Hv. by rewrite Hv. }
  split; [|split; [|split; [|split]]].
  - unfold final. rewrite get_finaliseOptions_cidVersion. apply get_forceCidVersion.
  - exact Hv1.
  - exact Hv0.
  - intros Hchanges. split; [|exact Hv1].
    intros Hcid. destruct (decide (get final "cidVersion" = VNum 1)) as [|Hv]; [done|].
    rewrite (Hv0 Hv) in Hcid. congruence.
  - intros h Hh Hne Hsha.
    assert (Hfinal : get final "cidVersion" = VNum 1).
    { unfold final. rewrite get_finaliseOptions_cidVersion.
      apply get_forceCidVersion. right. rewrite Hh. simpl. split.
      - by rewrite bool_decide_eq_false_2.
      - congruence. }
    split; [exact Hfinal|by apply Hv1].
Qed.

(** C5.  The path of an entry: the node's path when it has a non-empty one;
    otherwise the string form of the entry's (version-adjusted) CID, unless
    [wrapWithDirectory] is set, in which case the empty string. *)
Theorem output_path_derivation (opts : Options) (file : ImportedNode) :
  let entry := transformEntry opts file in
  (∀ p : string, file_path file = Some p → p ≠ "" → path entry = p)
  ∧ (file_path file = None ∨ file_path file = Some "" →
     truthy (get opts "wrapWithDirectory") = false →
     path entry = cidToString (cid entry))
  ∧ (file_path file = None ∨ file_path file = Some "" →
     truthy (get opts "wrapWithDirectory") = true →
     path entry = "").
Proof.
  intros entry. unfold entry, transformEntry. simpl.
  split; [|split].
  - intros p Hp Hne. rewrite Hp. simpl.
    rewrite bool_decide_eq_false_2 by done. simpl.
    by rewrite andb_false_r.
  - intros [Hp|Hp] Hw; rewrite Hp, Hw; done.
  - intros [Hp|Hp] Hw; rewrite Hp, Hw; done.
Qed.

End EntryTheorems.

Lemma progress_run_from (events : list Z) (st : Progress) :
  total (fold_left progress_call events st) = total st + partial_sum events (length events)
  ∧ reported (fold_left progress_call events st)
    = (reported st
       ++ map (fun k => total st + partial_sum events k) (seq 1 (length events)))%list.
Proof.
  revert st. induction events as [|b events IH]; intros st.
  - simpl. unfold partial_sum. simpl. split; [lia|by rewrite app_nil_r].
  - destruct (IH (progress_call st b)) as [IHt IHr].
    cbn [fold_left length]. split.
    + rewrite IHt. unfold partial_sum. cbn [firstn fold_right].
      rewrite !firstn_all. simpl. lia.
    + rewrite IHr. simpl reported. simpl total.
      rewrite <- app_assoc. f_equal.
      cbn [seq map]. unfold partial_sum at 2. cbn [firstn fold_right].
      rewrite Z.add_0_r. simpl. f_equal.
      rewrite <- (seq_shift _ 1), map_map.
      apply map_ext. intros k. unfold partial_sum. simpl. lia.
Qed.

(** C8.  The wrapped callback reports running totals: a truthy [progress]
    option is replaced by the accumulating function before the options reach
    the importer; called once per byte event, it calls the original callback
    once per event, the [k]th time with the sum of the first [k] byte counts;
    the total starts at 0, and events 100, 50, 25 are reported as 100, 150,
    175. *)
Theorem progress_reports_running_totals (opts : Options) (events : list Z) :
  (truthy (get opts "progress") = true →
   get (importerOptions (finaliseOptions opts)) "progress"
   = VProgressTotal (get opts "progress"))
  ∧ total progress_init = 0
  ∧ reported (progress_run events)
    = map (partial_sum events) (seq 1 (length events))
  ∧ length (reported (progress_run events)) = length events
  ∧ total (progress_run events) = partial_sum events (length events)
  ∧ reported (progress_run [100; 50; 25]) = [100; 150; 175].
Proof.
  split; [|split; [|split; [|split; [|split]]]].
  - intros Hp. unfold importerOptions, finaliseOptions.
    rewrite get_insert_ne by done.
    unfold wrapProgress at 1.
    assert (Hsame : get (applyTrickle (forceCidVersion opts)) "progress" = get opts "progress").
    { unfold get. rewrite lookup_applyTrickle_ne by done.
      by rewrite lookup_forceCidVersion_ne by done. }
    rewrite Hsame, Hp. by rewrite get_insert_eq.
  - reflexivity.
  - unfold progress_run.
    destruct (progress_run_from events progress_init) as [_ Hr].
    rewrite Hr. simpl. apply map_ext. intros k. lia.
  - unfold progress_run.
    destruct (progress_run_from events progress_init) as [_ Hr].
    rewrite Hr. simpl. by rewrite length_map, length_seq.
  - unfold progress_run.
    destruct (progress_run_from events progress_init) as [Ht _].
    rewrite Ht. simpl. lia.
  - reflexivity.
Qed.

Section StageTheorems.

Context `{Cids}.












End StageTheorems.

Section PipelineTheorems.

Context `{Cids}.

Lemma locked_run_releases_once (opts : Options) (env : Env) (consumer : Consumer)
    (u : Upstream) (seen : list OutputEntry) (n : nat) :
  (∀ held, consumer held ≠ WalkAway) →
  let r := consume env consumer (yield_star_finally (stages opts (upstream_gen u))) seen n in
  acquisitions (fst r) = 0%nat ∧ releases (fst r) = 1%nat ∧ snd r ≠ Suspended.
Proof.
  intros Hstays. revert seen n.
  induction u as [|e|file rest IH]; intros seen n.
  - through_stages. done.
  - through_stages. done.
  - through_stages;
      try done;
      try (exfalso; eapply Hstays; eassumption);
      apply IH.
Qed.

Lemma ends_with_cons {A : Type} (x y : A) (l : list A) :
  (∃ l', l = (l' ++ [y])%list) → ∃ l', x :: l = (l' ++ [y])%list.
Proof. intros [l' ->]. by exists (x :: l'). Qed.

Lemma locked_run_release_is_last (opts : Options) (env : Env) (consumer : Consumer)
    (u : Upstream) (seen : list OutputEntry) (n : nat) :
  (∀ held, consumer held ≠ WalkAway) →
  ∃ tr, fst (consume env consumer (yield_star_finally (stages opts (upstream_gen u))) seen n)
        = (tr ++ [EvLock ReleaseLock])%list.
Proof.
  intros Hstays. revert seen n.
  induction u as [|e|file rest IH]; intros seen n.
  - through_stages. by exists [].
  - through_stages. by exists [].
  - through_stages;
      try (exfalso; eapply Hstays; eassumption);
      repeat first [by exists [] | apply IH | apply ends_with_cons].
Qed.



Lemma preload_settlement_is_unobserved (opts : Options) (env1 env2 : Env)
    (consumer : Consumer) (u : Upstream) (seen : list OutputEntry) (n : nat) :
  same_but_preload_settlement env1 env2 →
  yielded (fst (consume env1 consumer
                  (yield_star_finally (stages opts (upstream_gen u))) seen n))
  = yielded (fst (consume env2 consumer
                    (yield_star_finally (stages opts (upstream_gen u))) seen n))
  ∧ snd (consume env1 consumer
           (yield_star_finally (stages opts (upstream_gen u))) seen n)
    = snd (consume env2 consumer
             (yield_star_finally (stages opts (upstream_gen u))) seen n).
Proof.
  intros Hrel. unfold same_but_preload_settlement in Hrel.
  unfold stages. revert seen n.
  induction u as [|e|file rest IH]; intros seen n.
  - done.
  - done.
  - through_stages; compare_calls Hrel; cbn [yielded];
      try done; simplify_eq; try done;
      match goal with
      | |- context [consume env1 _ _ ?s ?m] =>
          destruct (IH s m) as [Hy Hx]; by rewrite Hy, Hx
      end.
Qed.

End PipelineTheorems.

Section AddAllTheorems.

Context {cids : Cids} {config : Config} {imports : Importer}.

(** C1, as amended.  When the options resolve, [normaliseAddInput] returns,
    the consumer calls [next()] at least once and never leaves the generator
    suspended (it pulls again or calls [return()]), the read lock is taken
    exactly once and released exactly once, the acquisition being the first
    event and the release the last: whether the output is drained, the
    consumer returns after any non-empty prefix, or the importer, [preload]
    or [pin.add] fails. *)
Theorem lock_taken_once_released_once
    (source : Source) (options : option Options) (opts : Options)
    (items : Normalised) (env : Env) (consumer : Consumer) :
  resolveOptions options = inr opts →
  normaliseAddInput source = inr items →
  consumer [] = Next →
  (∀ held, consumer held ≠ WalkAway) →
  let r := run env consumer (addAll source options) in
  acquisitions (fst r) = 1%nat
  ∧ releases (fst r) = 1%nat
  ∧ (∃ between, fst r = (EvLock ReadLock :: between ++ [EvLock ReleaseLock])%list)
  ∧ snd r ≠ Suspended.
Proof.
  intros Hopts Hitems Hfirst Hstays. unfold run, addAll, pipeline.
  rewrite Hopts, Hitems, Hfirst. cbn [consume emit fst snd].
  match goal with
  | |- context [consume env consumer (yield_star_finally (stages opts (upstream_gen ?u))) ?s ?m] =>
      destruct (locked_run_releases_once opts env consumer u s m Hstays) as (Ha & Hr & Hx);
      destruct (locked_run_release_is_last opts env consumer u s m Hstays) as [between Hlast]
  end.
  split; [|split; [|split]].
  - unfold acquisitions in *. cbn [count_lock is_lock]. by rewrite Ha.
  - exact Hr.
  - exists between. by rewrite Hlast.
  - exact Hx.
Qed.

(** C7.  When [parseChunkerString] throws on the chunker option, option
    resolution fails with that error, no run of the invocation has any event
    (so none takes the lock), and the first [next()] fails with the error. *)
Theorem malformed_chunker_fails_before_the_lock
    (source : Source) (options : option Options) (e : Err)
    (env : Env) (consumer : Consumer) :
  parseChunkerString (get (default ∅ options) "chunker") = inl e →
  resolveOptions options = inl e
  ∧ fst (run env consumer (addAll source options)) = []
  ∧ acquisitions (fst (run env consumer (addAll source options))) = 0%nat
  ∧ (consumer [] = Next → run env consumer (addAll source options) = ([], Failed e)).
Proof.
  intros Hparse.
  assert (Hres : resolveOptions options = inl e).
  { unfold resolveOptions. by rewrite Hparse. }
  unfold run, addAll. rewrite Hres.
  split; [done|]. destruct (consumer []); done.
Qed.


(** C6, as amended.  How the promises returned by [preload] settle is never
    seen: two runs whose collaborators differ only in that yield the same
    entries and end the same way. *)
Theorem preload_rejection_does_not_abort
    (source : Source) (options : option Options)
    (env1 env2 : Env) (consumer : Consumer) :
  same_but_preload_settlement env1 env2 →
  yielded (fst (run env1 consumer (addAll source options)))
  = yielded (fst (run env2 consumer (addAll source options)))
  ∧ snd (run env1 consumer (addAll source options))
    = snd (run env2 consumer (addAll source options)).
Proof.
  intros Hrel. unfold run, addAll, pipeline.
  destruct (resolveOptions options) as [e|opts];
    destruct (normaliseAddInput source) as [e'|items];
    destruct (consumer []); try done.
  cbn [consume emit fst snd yielded].
  by apply preload_settlement_is_unobserved.
Qed.

End AddAllTheorems.

(** ** The theorems at concrete invocations *)

Example add_tree_drained :
  run Demo.all_fulfil drain Demo.add_tree
  = ([EvLock ReadLock;
      EvYield Demo.nested_entry;
      EvCall (Preload (Demo.v0 "top")) (Returns Fulfilled);
      EvCall (PinAdd (Demo.v0 "top") (mkPinOptions false false)) (Returns Fulfilled);
      EvYield Demo.root_entry;
      EvLock ReleaseLock], Exhausted).
Proof. reflexivity. Qed.

Example add_tree_left_after_one :
  run Demo.all_fulfil (take_then_return 1) Demo.add_tree
  = ([EvLock ReadLock; EvYield Demo.nested_entry; EvLock ReleaseLock], Returned).
Proof. reflexivity. Qed.

Lemma lock_taken_once_released_once_witness :
  let r := run Demo.all_fulfil (take_then_return 1) Demo.add_tree in
  acquisitions (fst r) = 1%nat
  ∧ releases (fst r) = 1%nat
  ∧ (∃ between, fst r = (EvLock ReadLock :: between ++ [EvLock ReleaseLock])%list)
  ∧ snd r ≠ Suspended.
Proof.
  eapply (lock_taken_once_released_once (config := Demo.config) (imports := Demo.tree)
            tt None _ tt Demo.all_fulfil (take_then_return 1)).
  - reflexivity.
  - reflexivity.
  - reflexivity.
  - intros held. unfold take_then_return.
    destruct (length held <? 1)%nat; discriminate.
Defined.

(** C1 as stated fails: a generator that gets [return()] before any
    [next()], and one whose chunker string is rejected, never take the lock;
    a consumer that takes one entry and walks away leaves it held. *)
Lemma lock_count_counterexample :
  acquisitions (fst (run Demo.all_fulfil (take_then_return 0) Demo.add_tree)) ≠ 1%nat
  ∧ acquisitions (fst (run Demo.all_fulfil drain Demo.add_tree_bad_chunker)) ≠ 1%nat
  ∧ releases (fst (run Demo.all_fulfil Demo.pull_once_and_leave Demo.add_tree)) ≠ 1%nat.
Proof. repeat split; vm_compute; discriminate. Qed.


Example pin_stage_on_a_tree :
  fst (consume Demo.all_fulfil drain
         (pinFile ∅ (source_of [Demo.nested_entry; Demo.root_entry])) [] 0%nat)
  = [EvYield Demo.nested_entry;
     EvCall (PinAdd (Demo.v0 "top") (mkPinOptions false false)) (Returns Fulfilled);
     EvYield Demo.root_entry].
Proof. reflexivity. Qed.

Lemma cid_is_v1_iff_effective_version_is_1_witness :
  let requested : Options := {["hashAlg" := VStr "sha2-512"; "cidVersion" := VNum 0]} in
  get (finaliseOptions requested) "cidVersion" = VNum 1
  ∧ cid (transformEntry (finaliseOptions requested) Demo.child)
    = toV1 (file_cid Demo.child).
Proof.
  intros requested.
  apply (proj2 (proj2 (proj2 (proj2
           (cid_is_v1_iff_effective_version_is_1 (H := Demo.cids) requested Demo.child))))
           "sha2-512"); [reflexivity|discriminate|discriminate].
Defined.


Example preload_stage_on_a_tree :
  fst (consume Demo.preload_rejects drain
         (preloadFile ∅ (source_of [Demo.nested_entry; Demo.root_entry])) [] 0%nat)
  = [EvYield Demo.nested_entry;
     EvCall (Preload (Demo.v0 "top")) (Returns (Rejected "preload failed"));
     EvYield Demo.root_entry].
Proof. reflexivity. Qed.

Lemma output_path_derivation_witness :
  let unnamed := mkNode (Demo.v0 "blob") None (VNum 3) None in
  path (transformEntry {["wrapWithDirectory" := VBool true]} unnamed) = ""
  ∧ path (transformEntry ∅ unnamed) = "Qmblob"
  ∧ path (transformEntry ∅ Demo.child) = "dir/a.txt".
Proof.
  intros unnamed. split; [|split].
  - apply (proj2 (proj2 (output_path_derivation (H := Demo.cids)
             {["wrapWithDirectory" := VBool true]} unnamed))); [by left|reflexivity].
  - etransitivity;
      [apply (proj1 (proj2 (output_path_derivation (H := Demo.cids) ∅ unnamed)));
         [by left|reflexivity]
      |reflexivity].
  - apply (proj1 (output_path_derivation (H := Demo.cids) ∅ Demo.child) "dir/a.txt");
      [reflexivity|discriminate].
Defined.

Lemma preload_rejection_does_not_abort_witness :
  same_but_preload_settlement Demo.all_fulfil Demo.preload_rejects
  ∧ yielded (fst (run Demo.all_fulfil drain Demo.add_tree))
    = yielded (fst (run Demo.preload_rejects drain Demo.add_tree))
  ∧ snd (run Demo.all_fulfil drain Demo.add_tree)
    = snd (run Demo.preload_rejects drain Demo.add_tree).
Proof.
  assert (Hrel : same_but_preload_settlement Demo.all_fulfil Demo.preload_rejects).
  { intros n c. destruct c; [exact I|reflexivity]. }
  split; [exact Hrel|].
  exact (preload_rejection_does_not_abort (config := Demo.config) (imports := Demo.tree)
           tt None Demo.all_fulfil Demo.preload_rejects drain Hrel).
Defined.

(** C6 as stated fails: a [preload] that throws ends the run with its
    error, and the root entry that a run with a working [preload] yields is
    never yielded. *)
Lemma preload_throw_counterexample :
  yielded (fst (run Demo.preload_throws drain Demo.add_tree)) = [Demo.nested_entry]
  ∧ yielded (fst (run Demo.all_fulfil drain Demo.add_tree))
    = [Demo.nested_entry; Demo.root_entry]
  ∧ snd (run Demo.preload_throws drain Demo.add_tree) = Failed "preload failed"
  ∧ yielded (fst (run Demo.preload_throws drain Demo.add_tree))
    ≠ yielded (fst (run Demo.all_fulfil drain Demo.add_tree)).
Proof. repeat split; vm_compute; discriminate. Qed.

Lemma malformed_chunker_fails_before_the_lock_witness :
  run Demo.all_fulfil drain Demo.add_tree_bad_chunker
  = ([], Failed "Unrecognized chunker option")
  ∧ acquisitions (fst (run Demo.all_fulfil drain Demo.add_tree_bad_chunker)) = 0%nat.
Proof.
  pose proof (malformed_chunker_fails_before_the_lock (config := Demo.config) (imports := Demo.tree)
                tt (Some {["chunker" := VStr "rabbit"]}) "Unrecognized chunker option"
                Demo.all_fulfil drain eq_refl) as (_ & _ & Hlock & Hfails).
  split; [exact (Hfails eq_refl)|exact Hlock].
Defined.

Lemma progress_reports_running_totals_witness :
  get (importerOptions (finaliseOptions {["progress" := VObject 7]})) "progress"
  = VProgressTotal (VObject 7)
  ∧ reported (progress_run [100; 50; 25]) = [100; 150; 175].
Proof.
  pose proof (progress_reports_running_totals {["progress" := VObject 7]} [100; 50; 25])
    as (Hwrapped & _ & _ & _ & _ & Hexample).
  split; [exact (Hwrapped eq_refl)|exact Hexample].
Defined.


Lemma importer_strategy_is_never_the_callers_witness :
  ∃ opts,
    resolveOptions (H := Demo.config)
      (Some {["strategy" := VStr "mine"; "trickle" := VBool true]}) = inr opts
    ∧ importerOptions opts !! "trickle" = None
    ∧ importerOptions opts !! "strategy" = Some (VStr "trickle").
Proof.
  assert (Hparse :
    parseChunkerString (Config := Demo.config)
      (get (default ∅ (Some {["strategy" := VStr "mine"; "trickle" := VBool true]}))
         "chunker")
    = inr {["chunker" := VStr "fixed"]}) by (vm_compute; reflexivity).
  destruct (importer_strategy_is_never_the_callers (H := Demo.config)
              (Some {["strategy" := VStr "mine"; "trickle" := VBool true]})
              {["chunker" := VStr "fixed"]} Hparse)
    as (opts & Hopts & Htrickle & Hstrategy & _).
  exists opts. split; [exact Hopts|]. split; [exact Htrickle|].
  rewrite Hstrategy. reflexivity.
Defined.

Example balanced_whatever_the_caller_says :
  resolveOptions (H := Demo.config) (Some {["strategy" := VStr "mine"]})
  = resolveOptions (H := Demo.config) None
  ∧ get Demo.default_opts "strategy" = VStr "balanced".
Proof. split; reflexivity. Qed.

(** ** Further facts: options *)

Section MoreOptionFacts.

Context `{Config}.

Lemma lookup_finaliseOptions_frame (opts : Options) (k : string) :
  k ≠ "cidVersion" → k ≠ "strategy" → k ≠ "trickle" → k ≠ "progress" →
  finaliseOptions opts !! k = opts !! k.
Proof.
  intros Hc Hs Ht Hp. unfold finaliseOptions.
  rewrite lookup_wrapProgress_ne, lookup_applyTrickle_ne by done.
  by apply lookup_forceCidVersion_ne.
Qed.

Lemma lookup_mergeOptions_threshold (options parsed : Options) :
  mergeOptions options parsed !! "shardSplitThreshold"
  = Some (default (if isShardingEnabled then VNum 1000 else VInfinity)
            ((parsed ∪ options) !! "shardSplitThreshold")).
Proof.
  unfold mergeOptions.
  rewrite !lookup_union, lookup_insert_ne, lookup_union by done.
  rewrite lookup_singleton_eq.
  by destruct (parsed !! "shardSplitThreshold"), (options !! "shardSplitThreshold").
Qed.

(** X1.  Option finalisation touches five properties only: any other
    property reaches the stages with the value of the chunker resolution if
    it has one and the caller's otherwise (absent when neither has it), and
    reaches the importer the same way except [pin], which the importer
    always gets as [false]. *)
Theorem other_options_pass_through
    (options : option Options) (parsed : Options) (k : string) :
  parseChunkerString (get (default ∅ options) "chunker") = inr parsed →
  k ∉ ["cidVersion"; "strategy"; "trickle"; "progress"; "shardSplitThreshold"] →
  ∃ opts,
    resolveOptions options = inr opts
    ∧ opts !! k = (parsed ∪ default ∅ options) !! k
    ∧ (k ≠ "pin" → importerOptions opts !! k = (parsed ∪ default ∅ options) !! k)
    ∧ importerOptions opts !! "pin" = Some (VBool false).
Proof.
  intros Hparse Hk.
  rewrite !not_elem_of_cons in Hk. destruct Hk as (Hc & Hs & Ht & Hp & Hth & _).
  exists (finaliseOptions (mergeOptions (default ∅ options) parsed)).
  assert (Hstage : finaliseOptions (mergeOptions (default ∅ options) parsed) !! k
                   = (parsed ∪ default ∅ options) !! k).
  { rewrite lookup_finaliseOptions_frame by done. by apply lookup_mergeOptions_ne. }
  split; [|split; [|split]].
  - unfold resolveOptions. by rewrite Hparse.
  - exact Hstage.
  - intros Hpin. unfold importerOptions. by rewrite lookup_insert_ne.
  - unfold importerOptions. apply lookup_insert_eq.
Qed.

(** X2.  The shard split threshold the importer gets is the property of the
    chunker resolution or of the caller's options when either has one, even
    one whose value is [undefined]; only when neither has the property is it
    1000 with sharding enabled and [Infinity] without. *)
Theorem shard_split_threshold_defaults
    (options : option Options) (parsed : Options) :
  parseChunkerString (get (default ∅ options) "chunker") = inr parsed →
  ∃ opts,
    resolveOptions options = inr opts
    ∧ importerOptions opts !! "shardSplitThreshold"
      = Some (match (parsed ∪ default ∅ options) !! "shardSplitThreshold" with
              | Some v => v
              | None => if isShardingEnabled then VNum 1000 else VInfinity
              end).
Proof.
  intros Hparse.
  exists (finaliseOptions (mergeOptions (default ∅ options) parsed)).
  split.
  - unfold resolveOptions. by rewrite Hparse.
  - unfold importerOptions. rewrite lookup_insert_ne by done.
    rewrite lookup_finaliseOptions_frame by done.
    rewrite lookup_mergeOptions_threshold.
    by destruct ((parsed ∪ default ∅ options) !! "shardSplitThreshold").
Qed.

End MoreOptionFacts.

Lemma other_options_pass_through_witness :
  ∃ opts,
    resolveOptions (H := Demo.config) (Some {["onlyHash" := VBool true]}) = inr opts
    ∧ opts !! "onlyHash" = Some (VBool true)
    ∧ importerOptions opts !! "onlyHash" = Some (VBool true)
    ∧ importerOptions opts !! "pin" = Some (VBool false).
Proof.
  assert (Hparse :
    parseChunkerString (Config := Demo.config)
      (get (default ∅ (Some {["onlyHash" := VBool true]})) "chunker")
    = inr {["chunker" := VStr "fixed"]}) by (vm_compute; reflexivity).
  assert (Hk : "onlyHash"
               ∉ ["cidVersion"; "strategy"; "trickle"; "progress"; "shardSplitThreshold"]).
  { rewrite !not_elem_of_cons. repeat split; try discriminate. apply not_elem_of_nil. }
  destruct (other_options_pass_through (H := Demo.config)
              (Some {["onlyHash" := VBool true]}) {["chunker" := VStr "fixed"]}
              "onlyHash" Hparse Hk)
    as (opts & Hopts & Hstage & Himporter & Hpin).
  exists opts. split; [exact Hopts|]. split; [|split; [|exact Hpin]].
  - rewrite Hstage. reflexivity.
  - rewrite Himporter by discriminate. reflexivity.
Defined.

Lemma shard_split_threshold_defaults_witness :
  (∃ opts,
     resolveOptions (H := Demo.config) None = inr opts
     ∧ importerOptions opts !! "shardSplitThreshold" = Some VInfinity)
  ∧ (∃ opts,
       resolveOptions (H := Demo.config)
         (Some {["shardSplitThreshold" := VUndefined]}) = inr opts
       ∧ importerOptions opts !! "shardSplitThreshold" = Some VUndefined).
Proof.
  split.
  - destruct (shard_split_threshold_defaults (H := Demo.config) None
                {["chunker" := VStr "fixed"]} eq_refl) as (opts & Hopts & Hth).
    exists opts. split; [exact Hopts|]. rewrite Hth. reflexivity.
  - assert (Hparse :
      parseChunkerString (Config := Demo.config)
        (get (default ∅ (Some {["shardSplitThreshold" := VUndefined]})) "chunker")
      = inr {["chunker" := VStr "fixed"]}) by (vm_compute; reflexivity).
    destruct (shard_split_threshold_defaults (H := Demo.config)
                (Some {["shardSplitThreshold" := VUndefined]})
                {["chunker" := VStr "fixed"]} Hparse) as (opts & Hopts & Hth).
    exists opts. split; [exact Hopts|]. rewrite Hth. reflexivity.
Defined.

(** ** Further facts: roots, entries and progress *)

Section MoreStageFacts.

Context `{Cids}.

Lemma isRootFile_isRootDir (opts : Options) (file : OutputEntry) :
  isRootFile opts file
  = isRootDir file
    && (negb (truthy (get opts "wrapWithDirectory")) || bool_decide (path file = "")).
Proof.
  unfold isRootFile, isRootDir, strict_eq. simpl. rewrite negb_involutive.
  assert (Hempty : bool_decide (VStr (path file) = VStr "") = bool_decide (path file = "")).
  { apply bool_decide_ext. split; congruence. }
  rewrite Hempty.
  destruct (bool_decide (path file = "")) eqn:Hp.
  - apply bool_decide_eq_true in Hp. rewrite Hp. simpl. by rewrite orb_true_r.
  - simpl. destruct (truthy (get opts "wrapWithDirectory")); simpl.
    + by rewrite andb_false_r.
    + by rewrite andb_true_r.
Qed.

(** X3.  The two root tests differ in one case only: [preloadFile] takes an
    entry for a root exactly when [pinFile] does and, with
    [wrapWithDirectory] set, its path is empty.  So whatever is preloaded
    has a path without '/', and is pinned as well unless pinning is off. *)
Theorem preload_roots_are_pin_roots (opts : Options) (file : OutputEntry) :
  isRootFile opts file
  = isRootDir file
    && (negb (truthy (get opts "wrapWithDirectory")) || bool_decide (path file = ""))
  ∧ (shouldPreload opts file = true → isRootDir file = true)
  ∧ (shouldPreload opts file = true →
     shouldPin opts file
     = (if is_nullish (get opts "pin") then true else truthy (get opts "pin"))).
Proof.
  pose proof (isRootFile_isRootDir opts file) as Hroot.
  assert (Hpre : shouldPreload opts file = true →
                 isRootDir file = true ∧ truthy (get opts "onlyHash") = false).
  { unfold shouldPreload. rewrite Hroot. intros Hs.
    apply andb_true_iff in Hs as [Hs _]. apply andb_true_iff in Hs as [Hs Hh].
    apply andb_true_iff in Hs as [Hs _]. by apply negb_true_iff in Hh. }
  split; [exact Hroot|split].
  - intros Hs. by destruct (Hpre Hs).
  - intros Hs. destruct (Hpre Hs) as [Hd Hh]. unfold shouldPin.
    rewrite Hd, Hh. simpl. by rewrite !andb_true_r.
Qed.

(** X4.  Which nodes become roots: a node with no path is, under
    [wrapWithDirectory], the empty-path entry that both stages take for a
    root; without it, it is named by its CID and both stages take it for a
    root as long as the CID's string form has no '/'; a node whose path has
    a '/' is a root for neither stage, whatever the options. *)
Theorem roots_among_transformed_nodes (opts : Options) (file : ImportedNode) :
  let entry := transformEntry opts file in
  (truthy (path_value (file_path file)) = false →
   truthy (get opts "wrapWithDirectory") = true →
   path entry = "" ∧ isRootFile opts entry = true ∧ isRootDir entry = true)
  ∧ (truthy (path_value (file_path file)) = false →
     truthy (get opts "wrapWithDirectory") = false →
     isRootFile opts entry = negb (includes (cidToString (cid entry)) "/")
     ∧ isRootDir entry = negb (includes (cidToString (cid entry)) "/"))
  ∧ (∀ p, file_path file = Some p → includes p "/" = true →
     isRootFile opts entry = false ∧ isRootDir entry = false).
Proof.
  intros entry.
  assert (Hpath_unnamed : truthy (path_value (file_path file)) = false →
    path entry = if truthy (get opts "wrapWithDirectory") then ""
                 else cidToString (cid entry)).
  { intros Hp. unfold entry, transformEntry. simpl. rewrite Hp. simpl.
    destruct (file_path file) as [p|]; simpl in *.
    - rewrite Hp. by destruct (truthy (get opts "wrapWithDirectory")).
    - by destruct (truthy (get opts "wrapWithDirectory")). }
  split; [|split].
  - intros Hp Hw. specialize (Hpath_unnamed Hp). rewrite Hw in Hpath_unnamed.
    split; [exact Hpath_unnamed|].
    pose proof (isRootFile_isRootDir opts entry) as Hroot.
    unfold isRootDir in *. rewrite Hroot, Hpath_unnamed, Hw. split; reflexivity.
  - intros Hp Hw. specialize (Hpath_unnamed Hp). rewrite Hw in Hpath_unnamed.
    pose proof (isRootFile_isRootDir opts entry) as Hroot.
    rewrite Hroot. unfold isRootDir. rewrite Hpath_unnamed, Hw. simpl.
    split; [by rewrite andb_true_r|done].
  - intros p Hp Hslash.
    assert (Hpe : path entry = p).
    { unfold entry, transformEntry. simpl. rewrite Hp. simpl.
      destruct p as [|a p']; [discriminate|]. simpl. by rewrite andb_false_r. }
    pose proof (isRootFile_isRootDir opts entry) as Hroot.
    rewrite Hroot. unfold isRootDir. rewrite Hpe, Hslash. done.
Qed.

End MoreStageFacts.

Lemma preload_roots_are_pin_roots_witness :
  let wrapping : Options := {["wrapWithDirectory" := VBool true]} in
  isRootFile wrapping Demo.root_entry = false
  ∧ isRootDir Demo.root_entry = true
  ∧ shouldPreload ∅ Demo.root_entry = true
  ∧ shouldPin ∅ Demo.root_entry = true.
Proof.
  intros wrapping.
  split; [|split; [reflexivity|split; [reflexivity|]]].
  - rewrite (proj1 (preload_roots_are_pin_roots (H := Demo.cids) wrapping Demo.root_entry)).
    reflexivity.
  - assert (Hpre : shouldPreload ∅ Demo.root_entry = true) by reflexivity.
    rewrite (proj2 (proj2 (preload_roots_are_pin_roots (H := Demo.cids) ∅ Demo.root_entry))
               Hpre).
    reflexivity.
Defined.

Lemma roots_among_transformed_nodes_witness :
  let unnamed := mkNode (Demo.v0 "blob") None (VNum 3) None in
  let wrapping : Options := {["wrapWithDirectory" := VBool true]} in
  (path (transformEntry wrapping unnamed) = ""
   ∧ isRootFile wrapping (transformEntry wrapping unnamed) = true
   ∧ isRootDir (transformEntry wrapping unnamed) = true)
  ∧ (isRootFile ∅ (transformEntry ∅ Demo.child) = false
     ∧ isRootDir (transformEntry ∅ Demo.child) = false).
Proof.
  intros unnamed wrapping. split.
  - apply (proj1 (roots_among_transformed_nodes (H := Demo.cids) wrapping unnamed));
      reflexivity.
  - apply (proj2 (proj2 (roots_among_transformed_nodes (H := Demo.cids) ∅ Demo.child))
             "dir/a.txt"); reflexivity.
Defined.

Lemma partial_sum_mono (events : list Z) (k k' : nat) :
  (∀ b, b ∈ events → 0 ≤ b) → (k ≤ k')%nat →
  partial_sum events k ≤ partial_sum events k'.
Proof.
  unfold partial_sum. revert k k'.
  induction events as [|b events IH]; intros k k' Hpos Hle.
  - by rewrite !firstn_nil.
  - destruct k as [|k]; destruct k' as [|k']; cbn [firstn fold_right]; try lia.
    + assert (0 ≤ b) by (apply Hpos; left).
      assert (0 ≤ fold_right Z.add 0 (firstn k' events)).
      { specialize (IH 0%nat k'). cbn [firstn fold_right] in IH.
        apply IH; [|lia]. intros b' Hb'. apply Hpos. by right. }
      lia.
    + assert (fold_right Z.add 0 (firstn k events)
              ≤ fold_right Z.add 0 (firstn k' events)).
      { apply IH; [|lia]. intros b' Hb'. apply Hpos. by right. }
      lia.
Qed.

(** X5.  When no byte count is negative, the totals handed to the caller's
    progress callback never decrease from one call to the next, and none
    exceeds the final total. *)
Theorem progress_totals_never_decrease (events : list Z) (i j : nat) (x y : Z) :
  (∀ b, b ∈ events → 0 ≤ b) →
  (i ≤ j)%nat →
  reported (progress_run events) !! i = Some x →
  reported (progress_run events) !! j = Some y →
  x ≤ y ∧ y ≤ total (progress_run events).
Proof.
  intros Hpos Hij Hx Hy. unfold progress_run in *.
  destruct (progress_run_from events progress_init) as [Ht Hr].
  rewrite Hr in Hx, Hy. rewrite Ht. simpl in *.
  rewrite list_lookup_fmap in Hx, Hy.
  destruct (seq 1 (length events) !! i) as [a|] eqn:Ha; [|discriminate].
  destruct (seq 1 (length events) !! j) as [b|] eqn:Hb; [|discriminate].
  apply lookup_seq in Ha as [-> Hi]. apply lookup_seq in Hb as [-> Hj].
  simpl in Hx, Hy. simplify_eq.
  split.
  - apply partial_sum_mono; [done|lia].
  - apply partial_sum_mono; [done|lia].
Qed.

Lemma progress_totals_never_decrease_witness :
  (100 : Z) ≤ 150 ∧ 150 ≤ total (progress_run [100; 50; 25]).
Proof.
  apply (progress_totals_never_decrease [100; 50; 25] 0 1 100 150).
  - intros b Hb. rewrite !elem_of_cons in Hb.
    destruct Hb as [->|[->|[->|Hb]]]; [lia|lia|lia|by apply elem_of_nil in Hb].
  - lia.
  - reflexivity.
  - reflexivity.
Defined.

(** ** Further facts: whole runs *)

Section MoreRunFacts.

Context `{Cids}.

Lemma drained_run_trace (opts : Options) (env : Env)
    (u : Upstream) (seen : list OutputEntry) (n : nat) :
  (∀ m c, env m c = Returns Fulfilled) →
  consume env drain (yield_star_finally (stages opts (upstream_gen u))) seen n
  = ((flat_map (events_of opts) (map (transformEntry opts) (upstream_nodes u))
      ++ [EvLock ReleaseLock])%list,
     match upstream_end u with
     | None => Exhausted
     | Some e => Failed e
     end).
Proof.
  intros Hok. unfold stages, drain. revert seen n.
  induction u as [|e|file rest IH]; intros seen n.
  - reflexivity.
  - reflexivity.
  - cbn [upstream_nodes map flat_map upstream_end]. unfold events_of at 1.
    through_stages;
      repeat match goal with
             | Hc : env ?m ?c = _ |- _ => rewrite Hok in Hc; simplify_eq
             end;
      rewrite IH; reflexivity.
Qed.

Lemma returned_run_trace (opts : Options) (env : Env) (k : nat)
    (u : Upstream) (seen : list OutputEntry) (n : nat) :
  (∀ m c, env m c = Returns Fulfilled) →
  (length seen < k)%nat →
  (k - length seen ≤ length (upstream_nodes u))%nat →
  consume env (take_then_return k)
    (yield_star_finally (stages opts (upstream_gen u))) seen n
  = ((flat_map (events_of opts)
        (map (transformEntry opts) (firstn (k - length seen) (upstream_nodes u)))
      ++ [EvLock ReleaseLock])%list,
     Returned).
Proof.
  intros Hok. unfold stages. revert seen n.
  induction u as [|e|file rest IH]; intros seen n Hlt Hle.
  - cbn [upstream_nodes length] in Hle. lia.
  - cbn [upstream_nodes length] in Hle. lia.
  - cbn [upstream_nodes length] in Hle |- *.
    destruct (k - length seen)%nat as [|j] eqn:Hj; [lia|].
    cbn [firstn map flat_map]. unfold events_of at 1.
    through_stages;
      repeat match goal with
             | Hc : env ?m ?c = _ |- _ => rewrite Hok in Hc; simplify_eq
             end;
      match goal with
      | Hd : take_then_return k ?s = _ |- _ =>
          unfold take_then_return in Hd;
          assert (Hlen : length s = S (length seen))
            by (rewrite length_app; cbn [length]; lia);
          destruct (Nat.ltb_spec (length s) k) as [Hlt'|Hge]; try discriminate
      end.
    all: try (rewrite IH by lia;
              replace (k - length (seen ++ [transformEntry opts file]))%nat with j by lia;
              reflexivity).
    all: assert (j = 0%nat) by lia; subst j; reflexivity.
Qed.

Lemma failed_call_fails_the_run (opts : Options) (env : Env) (consumer : Consumer)
    (u : Upstream) (seen : list OutputEntry) (n : nat) (c : Call) (o : outcome) (e : Err) :
  EvCall c o
  ∈ fst (consume env consumer (yield_star_finally (stages opts (upstream_gen u))) seen n) →
  failure c o = Some e →
  snd (consume env consumer (yield_star_finally (stages opts (upstream_gen u))) seen n)
  = Failed e.
Proof.
  unfold stages. revert seen n.
  induction u as [|e'|file rest IH]; intros seen n.
  - through_stages. intros Hin. apply list_elem_of_singleton in Hin. discriminate.
  - through_stages. intros Hin. apply list_elem_of_singleton in Hin. discriminate.
  - through_stages; intros Hin Hfail;
      repeat match goal with
             | Hm : _ ∈ (_ :: _) |- _ => apply elem_of_cons in Hm as [Hm|Hm]
             | Hm : _ ∈ [] |- _ => by apply elem_of_nil in Hm
             end;
      simplify_eq; try (cbn in Hfail; by simplify_eq);
      by eapply IH.
Qed.

Lemma failed_run_has_a_cause (opts : Options) (env : Env) (consumer : Consumer)
    (u : Upstream) (seen : list OutputEntry) (n : nat) (e : Err) :
  snd (consume env consumer (yield_star_finally (stages opts (upstream_gen u))) seen n)
  = Failed e →
  upstream_end u = Some e
  ∨ ∃ c o,
      EvCall c o
      ∈ fst (consume env consumer
               (yield_star_finally (stages opts (upstream_gen u))) seen n)
      ∧ failure c o = Some e.
Proof.
  unfold stages. revert seen n.
  induction u as [|e'|file rest IH]; intros seen n.
  - through_stages. discriminate.
  - through_stages. intros Hx. left. cbn [upstream_end]. congruence.
  - cbn [upstream_end].
    through_stages; intros Hx; try discriminate;
      first
        [ destruct (IH _ _ Hx) as [Hup|(c & o & Hin & Hf)];
          [by left|right; exists c, o; split; [|exact Hf]; set_solver]
        | simplify_eq;
          match goal with
          | Hc : env _ ?c = Throws ?e1 |- _ =>
              right; exists c, (Throws e1); split; [set_solver|reflexivity]
          | Hc : env _ ?c = Returns (Rejected ?e1) |- _ =>
              right; exists c, (Returns (Rejected e1)); split; [set_solver|reflexivity]
          end ].
Qed.

Lemma hash_only_run_calls_nobody (opts : Options) (env : Env) (consumer : Consumer)
    (u : Upstream) (seen : list OutputEntry) (n : nat) :
  truthy (get opts "onlyHash") = true →
  calls (fst (consume env consumer
                (yield_star_finally (stages opts (upstream_gen u))) seen n)) = [].
Proof.
  intros Honly. unfold stages. revert seen n.
  assert (Hpre : ∀ file, shouldPreload opts file = false).
  { intros file. unfold shouldPreload. rewrite Honly. simpl. by rewrite andb_false_r. }
  assert (Hpin : ∀ file, shouldPin opts file = false).
  { intros file. unfold shouldPin. rewrite Honly. simpl. by rewrite andb_false_r. }
  induction u as [|e|file rest IH]; intros seen n.
  - reflexivity.
  - reflexivity.
  - through_stages;
      repeat match goal with
             | Hs : shouldPreload _ _ = true |- _ => rewrite Hpre in Hs; discriminate
             | Hs : shouldPin _ _ = true |- _ => rewrite Hpin in Hs; discriminate
             end;
      cbn [calls]; first [apply IH | reflexivity].
Qed.

Lemma unpinned_run_only_preloads (opts : Options) (env : Env) (consumer : Consumer)
    (u : Upstream) (seen : list OutputEntry) (n : nat) :
  get opts "pin" = VBool false →
  forallb is_preload
    (calls (fst (consume env consumer
                   (yield_star_finally (stages opts (upstream_gen u))) seen n))) = true.
Proof.
  intros Hoff. unfold stages. revert seen n.
  assert (Hpin : ∀ file, shouldPin opts file = false).
  { intros file. unfold shouldPin. by rewrite Hoff. }
  induction u as [|e|file rest IH]; intros seen n.
  - reflexivity.
  - reflexivity.
  - through_stages;
      repeat match goal with
             | Hs : shouldPin _ _ = true |- _ => rewrite Hpin in Hs; discriminate
             end;
      cbn [calls forallb is_preload andb]; first [apply IH | reflexivity].
Qed.

End MoreRunFacts.

Section MoreAddAllFacts.

Context {cids : Cids} {config : Config} {imports : Importer}.

Lemma get_resolved_frame (options : option Options) (parsed : Options) (k : string) :
  parseChunkerString (get (default ∅ options) "chunker") = inr parsed →
  k ≠ "cidVersion" → k ≠ "strategy" → k ≠ "trickle" → k ≠ "progress" →
  k ≠ "shardSplitThreshold" →
  ∃ opts, resolveOptions options = inr opts
          ∧ get opts k = get (parsed ∪ default ∅ options) k.
Proof.
  intros Hparse Hc Hs Ht Hp Hth.
  exists (finaliseOptions (mergeOptions (default ∅ options) parsed)). split.
  - unfold resolveOptions. by rewrite Hparse.
  - unfold get. rewrite lookup_finaliseOptions_frame by done.
    by rewrite lookup_mergeOptions_ne.
Qed.

(** X6.  A drained run whose collaborators never fail, in full: the lock,
    then for each node of the importer, in order, the [preload] call if the
    entry is a preload root, then the [pin.add] call if it is to be pinned,
    then the entry; then the release.  The run ends exhausted, or with the
    importer's error if the importer ends with one, every node before the
    error having been yielded. *)
Theorem drained_run_in_full
    (source : Source) (options : option Options) (opts : Options)
    (items : Normalised) (env : Env) :
  resolveOptions options = inr opts →
  normaliseAddInput source = inr items →
  (∀ m c, env m c = Returns Fulfilled) →
  let u := importer items block (importerOptions opts) in
  run env drain (addAll source options)
  = ((EvLock ReadLock
      :: flat_map (events_of opts) (map (transformEntry opts) (upstream_nodes u))
      ++ [EvLock ReleaseLock])%list,
     match upstream_end u with
     | None => Exhausted
     | Some e => Failed e
     end).
Proof.
  intros Hopts Hitems Hok u. unfold run, addAll, pipeline.
  rewrite Hopts, Hitems. fold u. cbn [drain consume emit].
  by rewrite drained_run_trace.
Qed.

(** X7.  A consumer that leaves after [k] entries, with collaborators that
    never fail and an importer that has at least [k] nodes: the run is the
    lock, the calls and yields of the first [k] nodes, and the release; no
    call is made for any later node, and the run ends returned. *)
Theorem leaving_after_k_entries
    (source : Source) (options : option Options) (opts : Options)
    (items : Normalised) (env : Env) (k : nat) :
  resolveOptions options = inr opts →
  normaliseAddInput source = inr items →
  (∀ m c, env m c = Returns Fulfilled) →
  let u := importer items block (importerOptions opts) in
  (1 ≤ k ≤ length (upstream_nodes u))%nat →
  run env (take_then_return k) (addAll source options)
  = ((EvLock ReadLock
      :: flat_map (events_of opts)
           (map (transformEntry opts) (firstn k (upstream_nodes u)))
      ++ [EvLock ReleaseLock])%list,
     Returned).
Proof.
  intros Hopts Hitems Hok u Hk. unfold run, addAll, pipeline.
  rewrite Hopts, Hitems. fold u.
  assert (Hfirst : take_then_return k [] = Next).
  { unfold take_then_return. cbn [length].
    destruct (Nat.ltb_spec 0 k); [done|lia]. }
  rewrite Hfirst. cbn [consume emit].
  rewrite returned_run_trace by (cbn [length]; first [done | lia]).
  cbn [length fst snd]. by rewrite Nat.sub_0_r.
Qed.

(** X8.  No failure is swallowed: in any run of [addAll], once a [preload]
    call has thrown, or a [pin.add] call has thrown or its promise has
    rejected, the run ends failed with that very error. *)
Theorem failed_call_ends_the_run_with_its_error
    (source : Source) (options : option Options)
    (env : Env) (consumer : Consumer) (c : Call) (o : outcome) (e : Err) :
  EvCall c o ∈ fst (run env consumer (addAll source options)) →
  failure c o = Some e →
  snd (run env consumer (addAll source options)) = Failed e.
Proof.
  unfold run, addAll, pipeline.
  destruct (resolveOptions options) as [e1|opts];
    destruct (normaliseAddInput source) as [e2|items];
    destruct (consumer []); cbn [consume emit fst snd];
    intros Hin Hfail; try (by apply elem_of_nil in Hin).
  apply elem_of_cons in Hin as [Hin|Hin]; [discriminate|].
  by eapply failed_call_fails_the_run.
Qed.

(** X9.  No error is made up: a run of [addAll] that ends failed with [e]
    got [e] from [parseChunkerString], from [normaliseAddInput], from the
    importer, or from a [preload] or [pin.add] call of the run. *)
Theorem failed_run_error_has_a_source
    (source : Source) (options : option Options)
    (env : Env) (consumer : Consumer) (e : Err) :
  snd (run env consumer (addAll source options)) = Failed e →
  resolveOptions options = inl e
  ∨ normaliseAddInput source = inl e
  ∨ (∃ opts items,
       resolveOptions options = inr opts
       ∧ normaliseAddInput source = inr items
       ∧ upstream_end (importer items block (importerOptions opts)) = Some e)
  ∨ (∃ c o,
       EvCall c o ∈ fst (run env consumer (addAll source options))
       ∧ failure c o = Some e).
Proof.
  unfold run, addAll, pipeline.
  destruct (resolveOptions options) as [e1|opts] eqn:Hopts;
    destruct (normaliseAddInput source) as [e2|items] eqn:Hitems;
    destruct (consumer []); cbn [consume emit fst snd];
    intros Hx; try discriminate.
  - left. congruence.
  - left. congruence.
  - right. left. congruence.
  - apply failed_run_has_a_cause in Hx as [Hup|(c & o & Hin & Hf)].
    + right. right. left. by exists opts, items.
    + right. right. right. exists c, o. split; [|exact Hf]. by apply elem_of_cons; right.
Qed.

(** X11.  With a truthy [onlyHash] among the options, no run of [addAll]
    calls [preload] or [pin.add], whatever the other options, the importer's
    nodes and the consumer. *)
Theorem hash_only_add_calls_nobody
    (source : Source) (options : option Options) (parsed : Options)
    (env : Env) (consumer : Consumer) :
  parseChunkerString (get (default ∅ options) "chunker") = inr parsed →
  truthy (get (parsed ∪ default ∅ options) "onlyHash") = true →
  calls (fst (run env consumer (addAll source options))) = [].
Proof.
  intros Hparse Honly.
  destruct (get_resolved_frame options parsed "onlyHash" Hparse)
    as (opts & Hopts & Hget); try done.
  unfold run, addAll, pipeline. rewrite Hopts.
  destruct (normaliseAddInput source) as [e|items];
    destruct (consumer []); cbn [consume emit fst snd calls]; try done.
  apply hash_only_run_calls_nobody. by rewrite Hget.
Qed.

(** X12.  With [pin: false] among the options, no run of [addAll] calls
    [pin.add]: every call it makes is a [preload]. *)
Theorem unpinned_add_only_preloads
    (source : Source) (options : option Options) (parsed : Options)
    (env : Env) (consumer : Consumer) :
  parseChunkerString (get (default ∅ options) "chunker") = inr parsed →
  get (parsed ∪ default ∅ options) "pin" = VBool false →
  forallb is_preload (calls (fst (run env consumer (addAll source options)))) = true.
Proof.
  intros Hparse Hoff.
  destruct (get_resolved_frame options parsed "pin" Hparse)
    as (opts & Hopts & Hget); try done.
  unfold run, addAll, pipeline. rewrite Hopts.
  destruct (normaliseAddInput source) as [e|items];
    destruct (consumer []); cbn [consume emit fst snd calls]; try done.
  apply unpinned_run_only_preloads. by rewrite Hget.
Qed.

End MoreAddAllFacts.

Lemma drained_run_in_full_witness :
  run Demo.all_fulfil drain (addAll (H0 := Demo.config) (H1 := Cases.breaks_after_one) tt None)
  = ([EvLock ReadLock; EvYield Demo.nested_entry; EvLock ReleaseLock],
     Failed "write failed").
Proof.
  exact (drained_run_in_full (config := Demo.config) (imports := Cases.breaks_after_one)
           tt None Demo.default_opts tt Demo.all_fulfil
           eq_refl eq_refl (fun _ _ => eq_refl)).
Defined.

Lemma leaving_after_k_entries_witness :
  run Demo.all_fulfil (take_then_return 1) Demo.add_tree
  = ([EvLock ReadLock; EvYield Demo.nested_entry; EvLock ReleaseLock], Returned).
Proof.
  apply (leaving_after_k_entries (config := Demo.config) (imports := Demo.tree)
           tt None Demo.default_opts tt Demo.all_fulfil 1
           eq_refl eq_refl (fun _ _ => eq_refl)).
  cbn. lia.
Defined.

Lemma failed_call_ends_the_run_with_its_error_witness :
  snd (run Cases.pin_rejects drain Demo.add_tree) = Failed "pin failed".
Proof.
  apply (failed_call_ends_the_run_with_its_error
           (config := Demo.config) (imports := Demo.tree) tt None Cases.pin_rejects drain
           (PinAdd (Demo.v0 "top") pinAddOptions) (Returns (Rejected "pin failed"))).
  - assert (Htr : fst (run Cases.pin_rejects drain Demo.add_tree)
                  = [EvLock ReadLock;
                     EvYield Demo.nested_entry;
                     EvCall (Preload (Demo.v0 "top")) (Returns Fulfilled);
                     EvCall (PinAdd (Demo.v0 "top") pinAddOptions)
                       (Returns (Rejected "pin failed"));
                     EvLock ReleaseLock]) by reflexivity.
    unfold Demo.add_tree in Htr. rewrite Htr.
    rewrite !elem_of_cons. right; right; right; left. reflexivity.
  - reflexivity.
Defined.

Lemma failed_run_error_has_a_source_witness :
  snd (run Demo.preload_throws drain Demo.add_tree) = Failed "preload failed"
  ∧ ∃ c o,
      EvCall c o ∈ fst (run Demo.preload_throws drain Demo.add_tree)
      ∧ failure c o = Some "preload failed".
Proof.
  assert (Hx : snd (run Demo.preload_throws drain Demo.add_tree)
               = Failed "preload failed") by reflexivity.
  split; [exact Hx|].
  destruct (failed_run_error_has_a_source
              (config := Demo.config) (imports := Demo.tree) tt None
              Demo.preload_throws drain "preload failed" Hx)
    as [Hparse|[Hitems|[(opts & items & _ & _ & Hup)|Hcall]]].
  - discriminate Hparse.
  - discriminate Hitems.
  - discriminate Hup.
  - exact Hcall.
Defined.

Lemma hash_only_add_calls_nobody_witness :
  calls (fst (run Demo.all_fulfil drain
                (addAll (H0 := Demo.config) (H1 := Demo.tree) tt
                   (Some {["onlyHash" := VBool true]})))) = [].
Proof.
  assert (Hparse :
    parseChunkerString (Config := Demo.config)
      (get (default ∅ (Some {["onlyHash" := VBool true]})) "chunker")
    = inr {["chunker" := VStr "fixed"]}) by (vm_compute; reflexivity).
  apply (hash_only_add_calls_nobody (config := Demo.config) (imports := Demo.tree)
           tt (Some {["onlyHash" := VBool true]}) {["chunker" := VStr "fixed"]}
           Demo.all_fulfil drain Hparse).
  reflexivity.
Defined.

Lemma unpinned_add_only_preloads_witness :
  calls (fst (run Demo.all_fulfil drain
                (addAll (H0 := Demo.config) (H1 := Demo.tree) tt
                   (Some {["pin" := VBool false]}))))
  = [Preload (Demo.v0 "top")]
  ∧ forallb is_preload
      (calls (fst (run Demo.all_fulfil drain
                     (addAll (H0 := Demo.config) (H1 := Demo.tree) tt
                        (Some {["pin" := VBool false]}))))) = true.
Proof.
  split; [reflexivity|].
  assert (Hparse :
    parseChunkerString (Config := Demo.config)
      (get (default ∅ (Some {["pin" := VBool false]})) "chunker")
    = inr {["chunker" := VStr "fixed"]}) by (vm_compute; reflexivity).
  apply (unpinned_add_only_preloads (config := Demo.config) (imports := Demo.tree)
           tt (Some {["pin" := VBool false]}) {["chunker" := VStr "fixed"]}
           Demo.all_fulfil drain Hparse).
  reflexivity.
Defined.
